(** * oandaohlc: a shallow embedding of src/main.rs

    The program syncs OANDA candles into one SQLite table per
    (instrument, granularity).  The model threads a SQLite connection
    (committed contents, an open transaction's working copy, and a
    statement counter) through a state-and-error monad.  Every Rust
    [.unwrap()] that can panic becomes an error of the monad; the panic
    unwinds, dropping an open [rusqlite::Transaction], whose [Drop] rolls
    it back.

    Things the program takes from its environment are parameters of the
    section [Oanda]:
    - [F] and [parse_f64]: Rust's [f64] and [str::parse::<f64>];
    - [order_desc]: the rows of a table in the order SQLite produces for
      [ORDER BY timestamp DESC] (the order among equal timestamps is not
      specified by SQLite);
    - [fault]: whether the n-th SQL statement of the run fails (I/O,
      locking, ...);
    - [datetime_ok]: the seconds accepted by chrono's
      [DateTime::from_timestamp];
    - [upstream]: the OANDA REST endpoint for candles, from a path and the
      query parameters to a decoded response ([None] on transport or
      deserialisation failure). *)

From Stdlib Require Import ZArith Ascii String.
From stdpp Require Import base list strings gmap sorting pretty.

Open Scope Z_scope.

(** ** Strings: the [str] methods the program uses (ASCII). *)

Definition ascii_to_lower (ch : ascii) : ascii :=
  let n := nat_of_ascii ch in
  if (65 <=? n)%nat && (n <=? 90)%nat then ascii_of_nat (n + 32) else ch.

(** [str::to_lowercase] on ASCII text (instrument names are ASCII). *)
Fixpoint to_lowercase (s : string) : string :=
  match s with
  | EmptyString => EmptyString
  | String ch rest => String (ascii_to_lower ch) (to_lowercase rest)
  end.

(** [str::starts_with]: [starts_with s p] holds when [p] is a prefix of [s]. *)
Fixpoint starts_with (s p : string) : bool :=
  match p, s with
  | EmptyString, _ => true
  | String _ _, EmptyString => false
  | String a p', String b s' => if ascii_dec a b then starts_with s' p' else false
  end.

(** [char::is_whitespace] restricted to ASCII: \t \n \x0B \x0C \r and space. *)
Definition is_whitespace (ch : ascii) : bool :=
  let n := nat_of_ascii ch in
  ((9 <=? n)%nat && (n <=? 13)%nat) || (n =? 32)%nat.

Fixpoint trim_start (s : string) : string :=
  match s with
  | EmptyString => EmptyString
  | String ch rest => if is_whitespace ch then trim_start rest else s
  end.

Definition rev_string (s : string) : string :=
  string_of_list_ascii (rev (list_ascii_of_string s)).

(** [str::trim]. *)
Definition trim (s : string) : string :=
  rev_string (trim_start (rev_string (trim_start s))).

(** [str::split(',')]: [n] separators give [n+1] pieces, empty ones kept. *)
Fixpoint split_comma_aux (cur : string) (s : string) : list string :=
  match s with
  | EmptyString => [rev_string cur]
  | String ch rest =>
      if ascii_dec ch ","%char then rev_string cur :: split_comma_aux EmptyString rest
      else split_comma_aux (String ch cur) rest
  end.

Definition split_comma (s : string) : list string := split_comma_aux EmptyString s.

(** ** Whitelist and instrument selection (main, lines 160-182). *)

Definition default_whitelist : list string :=
  ["natgas_usd"; "xau_usd"; "eur_usd"; "de30_eur"; "xcu_usd"; "xag_usd";
   "xau_usd"; "sugar_usd"; "wtico_usd"; "wheat_usd"; "corn_usd"; "spx500_usd";
   "jp225_usd"; "cn50_usd"; "eu50_eur"; "fr40_eur"; "xau_xag"].

Definition whitelist (tickers : option string) : list string :=
  match tickers with
  | Some t => map (fun s => to_lowercase (trim s)) (split_comma t)
  | None => default_whitelist
  end.

(** [all_instruments.iter().filter(|inst| whitelist.iter().any(|w|
    inst.to_lowercase().starts_with(w)))]. *)
Definition is_selected (wl : list string) (inst : string) : bool :=
  existsb (fun w => starts_with (to_lowercase inst) w) wl.

Definition select_instruments (wl : list string) (all : list string) : list string :=
  filter (fun inst => is_selected wl inst = true) all.

(** ** Granularity and table names. *)

Inductive Granularity := D | W | M.

(** [format!("{:?}", g)]. *)
Definition granularity_code (g : Granularity) : string :=
  match g with D => "D" | W => "W" | M => "M" end.

(** [format!("{}_{}", instrument.to_lowercase(), granularity)]. *)
Definition table_name (instrument granularity : string) : string :=
  to_lowercase instrument +:+ "_" +:+ granularity.

Definition MAX_CANDLES : nat := 2000.

(** A sample [str::parse::<f64>] for concrete runs: unsigned decimal
    integers (["abc"] and [""] are rejected, as by Rust). *)
Fixpoint parse_digits_aux (acc : N) (s : string) : option N :=
  match s with
  | EmptyString => Some acc
  | String ch rest =>
      let n := nat_of_ascii ch in
      if (48 <=? n)%nat && (n <=? 57)%nat
      then parse_digits_aux (acc * 10 + N.of_nat (n - 48))%N rest
      else None
  end.

Definition parse_digits (s : string) : option N :=
  match s with EmptyString => None | _ => parse_digits_aux 0 s end.


Section Oanda.

Context {F : Type}.
Context (parse_f64 : string -> option F).

(** ** Upstream data (structs [OHLC] and [Candle]); [time] is the
    [DateTime<Utc>] as its Unix seconds. *)

Record OHLC := mkOHLC { o : string; h : string; l : string; c : string }.

Record Candle := mkCandle { time : Z; complete : bool; volume : F; mid : OHLC }.

(** A row of a candle table; [rowid] is SQLite's implicit row key. *)
Record row := mkRow {
  rowid : Z; timestamp : Z;
  open : F; high : F; low : F; close : F; row_volume : F }.

Abbreviation table := (list row) (only parsing).

Context (order_desc : table -> table).
Context (fault : nat -> bool).
Context (datetime_ok : Z -> bool).
Context (upstream : string -> list (string * string) -> option (list Candle)).

(** ** The connection and the monad. *)

Inductive err := SqlError | DataFormatError | UpstreamError | TimestampError.

Record conn := mkConn {
  committed : gmap string table;
  pending : option (gmap string table);
  stmt_no : nat }.

(** What a statement on the connection sees: the open transaction's working
    copy, or the committed database in autocommit mode. *)
Definition view (cn : conn) : gmap string table :=
  match pending cn with Some d => d | None => committed cn end.

Definition set_view (d : gmap string table) (cn : conn) : conn :=
  match pending cn with
  | Some _ => mkConn (committed cn) (Some d) (stmt_no cn)
  | None => mkConn d None (stmt_no cn)
  end.

Definition bump (cn : conn) : conn := mkConn (committed cn) (pending cn) (S (stmt_no cn)).

(** Dropping a [Transaction] that was not committed rolls it back. *)
Definition rollback (cn : conn) : conn := mkConn (committed cn) None (stmt_no cn).

Definition St (A : Type) : Type := conn -> (err + A) * conn.

Definition ret {A} (x : A) : St A := fun cn => (inr x, cn).
Definition bind {A B} (m : St A) (k : A -> St B) : St B := fun cn =>
  match m cn with
  | (inl e, cn') => (inl e, cn')
  | (inr x, cn') => k x cn'
  end.
Definition throw {A} (e : err) : St A := fun cn => (inl e, cn).

Notation "x <-- m ;; k" := (bind m (fun x => k)) (at level 69, m at next level, right associativity).
Notation "m ;;; k" := (bind m (fun _ => k)) (at level 69, right associativity).

Definition unwrap {A} (e : err) (x : option A) : St A :=
  match x with Some v => ret v | None => throw e end.

Fixpoint for_each {A} (f : A -> St unit) (l : list A) : St unit :=
  match l with
  | [] => ret tt
  | x :: l' => f x ;;; for_each f l'
  end.

(** One SQL statement that changes the database, followed by [.unwrap()]. *)
Definition execute (f : gmap string table -> err + gmap string table) : St unit :=
  fun cn =>
    let cn1 := bump cn in
    if fault (stmt_no cn) then (inl SqlError, cn1) else
    match f (view cn) with
    | inl e => (inl e, cn1)
    | inr d => (inr tt, set_view d cn1)
    end.

(** [conn.transaction().unwrap()]: BEGIN. *)
Definition begin_tx : St unit := fun cn =>
  let cn1 := bump cn in
  if fault (stmt_no cn) then (inl SqlError, cn1) else
  match pending cn with
  | Some _ => (inl SqlError, cn1)
  | None => (inr tt, mkConn (committed cn) (Some (committed cn)) (S (stmt_no cn)))
  end.

(** [tx.commit().unwrap()]: COMMIT. *)
Definition commit_tx : St unit := fun cn =>
  let cn1 := bump cn in
  if fault (stmt_no cn) then (inl SqlError, cn1) else
  match pending cn with
  | Some d => (inr tt, mkConn d None (S (stmt_no cn)))
  | None => (inl SqlError, cn1)
  end.

(** The scope of [let tx = conn.transaction().unwrap(); ...; tx.commit().unwrap();]:
    a panic between BEGIN and the end of COMMIT drops [tx], which rolls back. *)
Definition with_transaction (body : St unit) : St unit := fun cn =>
  match begin_tx cn with
  | (inl e, cn1) => (inl e, cn1)
  | (inr _, cn1) =>
      match (body ;;; commit_tx) cn1 with
      | (inl e, cn2) => (inl e, rollback cn2)
      | (inr x, cn2) => (inr x, cn2)
      end
  end.

(** ** Table operations (SQL statements of the program). *)

Definition max_rowid (t : table) : Z := fold_right (fun r m => Z.max (rowid r) m) 0 t.

(** SQLite gives a new row of a rowid table the key [max(rowid) + 1]. *)
Definition next_rowid (t : table) : Z := max_rowid t + 1.

Definition params := (Z * F * F * F * F * F)%type.

(** [INSERT INTO {} (timestamp, open, high, low, close, volume) VALUES (...)]. *)
Definition insert_row (t : table) (p : params) : table :=
  let '(ts, op, hi, lo, cl, vo) := p in
  t ++ [mkRow (next_rowid t) ts op hi lo cl vo].

(** [DELETE FROM {} WHERE rowid IN (SELECT rowid FROM {} ORDER BY timestamp
    DESC LIMIT -1 OFFSET ?1)] with [?1 = MAX_CANDLES]. *)
Definition trim_table (t : table) : table :=
  let doomed := map rowid (drop MAX_CANDLES (order_desc t)) in
  filter (fun r => rowid r ∉ doomed) t.

Definition on_table (name : string) (f : table -> table)
    (d : gmap string table) : err + gmap string table :=
  match d !! name with
  | Some t => inr (<[name := f t]> d)
  | None => inl SqlError
  end.

(** The [params!] of one candle: the four [parse::<f64>().unwrap()] in order. *)
Definition candle_params (cd : Candle) : err + params :=
  match parse_f64 (o (mid cd)), parse_f64 (h (mid cd)),
        parse_f64 (l (mid cd)), parse_f64 (c (mid cd)) with
  | Some op, Some hi, Some lo, Some cl => inr (time cd, op, hi, lo, cl, volume cd)
  | _, _, _, _ => inl DataFormatError
  end.

Definition lift_err {A} (x : err + A) : St A :=
  match x with inl e => throw e | inr v => ret v end.

Definition insert_one (tbl : string) (cd : Candle) : St unit :=
  if complete cd then
    p <-- lift_err (candle_params cd) ;;
    execute (on_table tbl (fun t => insert_row t p))
  else ret tt.

(** [fn insert_candles]. *)
Definition insert_candles (tbl : string) (candles : list Candle) : St unit :=
  with_transaction (
    for_each (insert_one tbl) candles ;;;
    execute (on_table tbl trim_table)).

(** [fn setup_table]: [CREATE TABLE IF NOT EXISTS]. *)
Definition setup_table (tbl : string) : St unit :=
  execute (fun d => match d !! tbl with
                    | Some _ => inr d
                    | None => inr (<[tbl := []]> d)
                    end).

(** [conn.query_row("SELECT timestamp FROM {} ORDER BY timestamp DESC LIMIT 1",
    [], |row| row.get::<_, i64>(0).map(|ts| DateTime::from_timestamp(ts, 0)
    .unwrap())).ok()]: a failed query and an empty result both give [None];
    the [unwrap] inside the closure panics. *)
Definition resume_point (tbl : string) : St (option Z) := fun cn =>
  let cn1 := bump cn in
  if fault (stmt_no cn) then (inr None, cn1) else
  match view cn !! tbl with
  | None => (inr None, cn1)
  | Some t =>
      match order_desc t with
      | [] => (inr None, cn1)
      | r :: _ =>
          if datetime_ok (timestamp r) then (inr (Some (timestamp r)), cn1)
          else (inl TimestampError, cn1)
      end
  end.

Definition BASE_URL : string := "https://api-fxtrade.oanda.com/v3".

Definition candles_path (instrument : string) : string :=
  BASE_URL +:+ "/instruments/" +:+ instrument +:+ "/candles".

(** The query string of [fn fetch_candles]. *)
Definition candles_query (granularity : string) (from : option Z) : list (string * string) :=
  [("price", "M"); ("granularity", granularity); ("count", "500")] ++
  match from with
  | Some from_time => [("from", pretty from_time)]
  | None => []
  end.

(** [fetch_candles(...).await.unwrap()]. *)
Definition fetch_candles (instrument granularity : string) (from : option Z) : St (list Candle) :=
  unwrap UpstreamError (upstream (candles_path instrument) (candles_query granularity from)).

(** The body of the inner loop of [main]. *)
Definition sync_pair (instrument granularity : string) : St unit :=
  let tbl := table_name instrument granularity in
  setup_table tbl ;;;
  last_timestamp <-- resume_point tbl ;;
  candles <-- fetch_candles instrument granularity last_timestamp ;;
  insert_candles tbl candles.

(** [main] after argument parsing: [instruments] is the result of
    [fetch_instruments] ([None] when it fails). *)
Definition main_sync (tickers : option string) (instruments : option (list string))
    (granularities : list Granularity) : St unit :=
  let wl := whitelist tickers in
  all_instruments <-- unwrap UpstreamError instruments ;;
  let selected := map granularity_code granularities in
  for_each (fun inst => for_each (sync_pair inst) selected)
    (select_instruments wl all_instruments).

(** ** What a successful [insert_candles] computes. *)

(** The parameters of the complete candles, in order, or the first parse
    failure among them. *)
Fixpoint complete_params (cs : list Candle) : err + list params :=
  match cs with
  | [] => inr []
  | cd :: cs' =>
      if complete cd then
        match candle_params cd, complete_params cs' with
        | inr p, inr ps => inr (p :: ps)
        | inl e, _ => inl e
        | inr _, inl e => inl e
        end
      else complete_params cs'
  end.

Definition insert_rows (t : table) (ps : list params) : table := fold_left insert_row ps t.


(** ** Reference notions for the statements. *)

(** The largest timestamp of a table, if any. *)
Definition max_ts (t : table) : option Z :=
  fold_right (fun r acc => match acc with
                           | None => Some (timestamp r)
                           | Some m => Some (Z.max (timestamp r) m)
                           end) None t.

(** The [ORDER BY timestamp DESC] relation between two rows. *)
Definition ts_desc (r1 r2 : row) : Prop := timestamp r2 <= timestamp r1.

#[global] Instance ts_desc_dec : RelDecision ts_desc.
Proof. intros r1 r2. unfold ts_desc. apply _. Defined.

(** One order SQLite may produce for [ORDER BY timestamp DESC]: a stable
    merge sort, keeping insertion order among equal timestamps. *)
Definition sqlite_order_desc (t : table) : table := merge_sort ts_desc t.

(** Distinct rowids in every table: SQLite's rowid is the table's key. *)
Definition db_wf (d : gmap string table) : Prop :=
  map_Forall (fun _ t => NoDup (map rowid t)) d.

(** A table that exists, keeps rowids distinct and is within the bound. *)
Definition table_ok (name : string) (d : gmap string table) : Prop :=
  ∃ t, d !! name = Some t ∧ NoDup (map rowid t) ∧ (length t ≤ MAX_CANDLES)%nat.

(** ** Lemmas: the transaction of [insert_candles]. *)

(** A statement run inside an open transaction leaves the committed database
    alone and the transaction open. *)
Definition keeps_tx (m : St unit) : Prop :=
  ∀ cn d, pending cn = Some d →
    committed (snd (m cn)) = committed cn ∧ ∃ d', pending (snd (m cn)) = Some d'.

Lemma execute_keeps_tx f : keeps_tx (execute f).
Proof.
  intros cn d Hp. unfold execute, set_view, bump; simpl.
  destruct (fault (stmt_no cn)); simpl; [rewrite Hp; eauto|].
  destruct (f (view cn)); simpl; rewrite ?Hp; simpl; eauto.
Qed.

Lemma bind_keeps_tx (m : St unit) (k : St unit) :
  keeps_tx m → keeps_tx k → keeps_tx (m ;;; k).
Proof.
  intros Hm Hk cn d Hp. unfold bind.
  destruct (Hm cn d Hp) as [Hc [d' Hd']].
  destruct (m cn) as [[e|[]] cn'] eqn:E; simpl in *; [eauto|].
  destruct (Hk cn' d' Hd') as [Hc' Hd'']. rewrite Hc'. eauto.
Qed.

Lemma insert_one_keeps_tx tbl cd : keeps_tx (insert_one tbl cd).
Proof.
  intros cn d Hp. unfold insert_one.
  destruct (complete cd); [|simpl; eauto].
  unfold bind, lift_err. destruct (candle_params cd) as [e|pr]; simpl; [eauto|].
  apply (execute_keeps_tx _ cn d Hp).
Qed.

Lemma for_each_insert_keeps_tx tbl cs : keeps_tx (for_each (insert_one tbl) cs).
Proof.
  induction cs as [|cd cs IH]; simpl.
  - intros cn d Hp. simpl. eauto.
  - apply bind_keeps_tx; [apply insert_one_keeps_tx | exact IH].
Qed.

(** The insertion loop, when it succeeds, applied [insert_rows] to the table
    in the transaction's working copy. *)
Lemma for_each_insert_ok tbl cs : ∀ cn d cn',
  pending cn = Some d →
  for_each (insert_one tbl) cs cn = (inr tt, cn') →
  ∃ ps d', complete_params cs = inr ps ∧ pending cn' = Some d' ∧
    committed cn' = committed cn ∧
    (∀ t, d !! tbl = Some t → d' = <[tbl := insert_rows t ps]> d) ∧
    (d !! tbl = None → d' = d).
Proof.
  induction cs as [|cd cs IH]; intros cn d cn' Hp Hrun; simpl in Hrun.
  - injection Hrun as <-. exists [], d. repeat split; auto.
    intros t Ht. unfold insert_rows; simpl. symmetry. by apply insert_id.
  - unfold bind in Hrun. simpl. unfold insert_one in Hrun.
    destruct (complete cd) eqn:Hcomp.
    + unfold bind, lift_err in Hrun.
      destruct (candle_params cd) as [e|pr] eqn:Hpar; [discriminate|].
      unfold ret in Hrun. unfold execute, bump, set_view in Hrun.
      destruct (fault (stmt_no cn)); [discriminate|].
      unfold view in Hrun. rewrite Hp in Hrun.
      unfold on_table at 1 in Hrun. destruct (d !! tbl) as [t0|] eqn:Ht0;
        [|discriminate].
      simpl in Hrun. rewrite ?Hp in Hrun.
      eapply IH in Hrun; [|reflexivity].
      destruct Hrun as (ps & d' & Hps & Hd' & Hc & Hsome & Hnone).
      exists (pr :: ps), d'. rewrite ?Hcomp, ?Hpar, ?Hps.
      split; [reflexivity|]. split; [exact Hd'|]. split; [exact Hc|]. split.
      * intros t Ht. injection Ht as <-.
        rewrite (Hsome (insert_row t0 pr)) by (by rewrite lookup_insert_eq).
        unfold insert_rows; simpl. by rewrite insert_insert_eq.
      * intros Hn. congruence.
    + simpl in Hrun. edestruct (IH cn d cn' Hp Hrun)
        as (ps & d' & Hps & Hd' & Hc & Hsome & Hnone).
      exists ps, d'. repeat split; auto.
Qed.

Lemma bind_unit_eq (m k : St unit) cn :
  (m ;;; k) cn = match m cn with (inl e, cn') => (inl e, cn') | (inr _, cn') => k cn' end.
Proof. reflexivity. Qed.

(** Every run of [insert_candles] either fails with the committed database
    untouched, or commits the trimmed table after inserting the complete
    candles. *)
Lemma insert_candles_cases tbl cs cn :
  (∃ e cn', insert_candles tbl cs cn = (inl e, cn') ∧ committed cn' = committed cn) ∨
  (∃ cn' t ps, insert_candles tbl cs cn = (inr tt, cn') ∧
     pending cn = None ∧ pending cn' = None ∧
     committed cn !! tbl = Some t ∧ complete_params cs = inr ps ∧
     committed cn' = <[tbl := trim_table (insert_rows t ps)]> (committed cn)).
Proof.
  unfold insert_candles, with_transaction.
  destruct (begin_tx cn) as [[e|[]] cn1] eqn:Hb.
  - left. exists e, cn1. split; [reflexivity|]. unfold begin_tx in Hb.
    destruct (fault (stmt_no cn)); [injection Hb as _ <-; reflexivity|].
    destruct (pending cn); injection Hb as _ <-; reflexivity.
  - unfold begin_tx in Hb. destruct (fault (stmt_no cn)) eqn:Hf; [discriminate|].
    destruct (pending cn) eqn:Hpn; [discriminate|]. injection Hb as <-.
    rewrite !bind_unit_eq.
    set (cn1 := mkConn (committed cn) (Some (committed cn)) (S (stmt_no cn))).
    pose proof (for_each_insert_keeps_tx tbl cs cn1 (committed cn) eq_refl) as [Hc1 [d1 Hd1]].
    destruct (for_each (insert_one tbl) cs cn1) as [[e|[]] cn2] eqn:H1; simpl in Hc1, Hd1.
    + left. exists e, (rollback cn2). split; [reflexivity|]. exact Hc1.
    + destruct (for_each_insert_ok tbl cs cn1 (committed cn) cn2 eq_refl H1)
        as (ps & d' & Hps & Hd' & Hc2 & Hsome & Hnone).
      destruct (committed cn !! tbl) as [t|] eqn:Ht.
      2:{ rewrite (Hnone eq_refl) in Hd'. left.
          unfold execute, view, set_view, bump at 1. rewrite Hd'. simpl.
          destruct (fault (stmt_no cn2)); simpl.
          - eexists _, _. split; [reflexivity|]. exact Hc1.
          - unfold on_table. rewrite Ht. eexists _, _. split; [reflexivity|]. exact Hc1. }
      rewrite (Hsome t eq_refl) in Hd'.
      unfold execute, view, set_view, bump at 1. rewrite Hd'. simpl.
      destruct (fault (stmt_no cn2)) eqn:Hf2.
      { left. eexists _, _. split; [reflexivity|]. simpl. exact Hc1. }
      unfold on_table. rewrite lookup_insert_eq. simpl.
      unfold commit_tx. rewrite ?Hd'. simpl. destruct (fault (S (stmt_no cn2))) eqn:Hf3.
      { left. eexists _, _. split; [reflexivity|]. simpl. exact Hc1. }
      right. eexists _, t, ps. repeat split; auto. simpl. by rewrite insert_insert_eq.
Qed.

(** ** Lemmas: the retention trim. *)

Lemma filter_keep_all {A} (P : A → Prop) `{∀ x, Decision (P x)} (l : list A) :
  (∀ x, x ∈ l → P x) → filter P l = l.
Proof.
  induction l as [|x l IH]; intros Hall; [done|].
  rewrite filter_cons_True by (apply Hall; left).
  f_equal. apply IH. intros y Hy. apply Hall. by right.
Qed.

Lemma filter_drop_all {A} (P : A → Prop) `{∀ x, Decision (P x)} (l : list A) :
  (∀ x, x ∈ l → ¬ P x) → filter P l = [].
Proof.
  induction l as [|x l IH]; intros Hnone; [done|].
  rewrite filter_cons_False by (apply Hnone; left).
  apply IH. intros y Hy. apply Hnone. by right.
Qed.

Lemma elem_of_map_rowid (r : row) (l : table) : r ∈ l → rowid r ∈ map rowid l.
Proof.
  rewrite !list_elem_of_In. apply in_map.
Qed.

Section Trim.

Hypothesis order_desc_perm : ∀ t, order_desc t ≡ₚ t.

(** With distinct rowids, the trim keeps exactly the first [MAX_CANDLES]
    rows of the [ORDER BY timestamp DESC] order (up to the order of the
    table). *)
Lemma trim_table_perm (t : table) :
  NoDup (map rowid t) → trim_table t ≡ₚ take MAX_CANDLES (order_desc t).
Proof.
  intros Hnd. unfold trim_table.
  set (L := order_desc t).
  assert (HL : L ≡ₚ t) by apply order_desc_perm.
  assert (HndL : NoDup (map rowid L)) by (by rewrite HL).
  rewrite <- HL.
  set (P := λ r : row, rowid r ∉ map rowid (drop MAX_CANDLES L)).
  rewrite <- (firstn_skipn MAX_CANDLES L) at 1.
  rewrite filter_app.
  rewrite <- (firstn_skipn MAX_CANDLES L), map_app in HndL.
  apply NoDup_app in HndL as (_ & Hdisj & _).
  rewrite (filter_keep_all _ (take MAX_CANDLES L)).
  2:{ intros r Hr. apply Hdisj. by apply elem_of_map_rowid. }
  rewrite (filter_drop_all _ (drop MAX_CANDLES L)).
  2:{ intros r Hr Hn. apply Hn. by apply elem_of_map_rowid. }
  by rewrite app_nil_r.
Qed.

Lemma trim_table_length (t : table) :
  NoDup (map rowid t) → (length (trim_table t) ≤ MAX_CANDLES)%nat.
Proof.
  intros Hnd. rewrite (trim_table_perm t Hnd), length_take. lia.
Qed.

(** A table within the bound is left as it is. *)
Lemma trim_table_small (t : table) :
  (length t ≤ MAX_CANDLES)%nat → trim_table t = t.
Proof.
  intros Hlen. unfold trim_table.
  rewrite drop_ge.
  2:{ rewrite (Permutation_length (order_desc_perm t)). exact Hlen. }
  apply filter_keep_all. intros r _ Hin. inversion Hin.
Qed.

(** The trim only removes rows. *)
Lemma trim_table_sublist (t : table) : trim_table t `sublist_of` t.
Proof. unfold trim_table. apply sublist_filter. Qed.

End Trim.

(** ** Lemmas: rows added by the insertion loop. *)

Definition params_row (id : Z) (p : params) : row :=
  let '(ts, op, hi, lo, cl, vo) := p in mkRow id ts op hi lo cl vo.

Definition row_params (r : row) : params :=
  (timestamp r, open r, high r, low r, close r, row_volume r).

Definition params_ts (p : params) : Z := let '(ts, _, _, _, _, _) := p in ts.

Lemma insert_row_eq t p : insert_row t p = t ++ [params_row (next_rowid t) p].
Proof. by destruct p as [[[[[ts op] hi] lo] cl] vo]. Qed.

Lemma max_rowid_ge (t : table) r : r ∈ t → rowid r ≤ max_rowid t.
Proof.
  induction t as [|r' t IH]; intros Hin; [inversion Hin|].
  simpl. apply elem_of_cons in Hin as [->|Hin]; [lia|].
  specialize (IH Hin). lia.
Qed.

Lemma insert_row_nodup t p : NoDup (map rowid t) → NoDup (map rowid (insert_row t p)).
Proof.
  intros Hnd. rewrite insert_row_eq, map_app. apply NoDup_app.
  split; [exact Hnd|]. split; [|destruct p as [[[[[ts op] hi] lo] cl] vo]; simpl; apply NoDup_singleton].
  intros x Hx Hx'. destruct p as [[[[[ts op] hi] lo] cl] vo]. simpl in Hx'.
  apply list_elem_of_singleton in Hx'. subst x.
  apply list_elem_of_In, in_map_iff in Hx as (r & Hr & Hin).
  apply list_elem_of_In, max_rowid_ge in Hin. unfold next_rowid in Hr. lia.
Qed.

Lemma insert_rows_nodup ps : ∀ t, NoDup (map rowid t) → NoDup (map rowid (insert_rows t ps)).
Proof.
  induction ps as [|p ps IH]; intros t Hnd; [done|].
  unfold insert_rows; simpl. apply IH, insert_row_nodup, Hnd.
Qed.

(** [insert_rows] appends one row per parameter tuple, in order. *)
Lemma insert_rows_app ps : ∀ t, ∃ new,
  insert_rows t ps = t ++ new ∧ map row_params new = ps.
Proof.
  induction ps as [|p ps IH]; intros t.
  - exists []. unfold insert_rows; simpl. by rewrite app_nil_r.
  - destruct (IH (insert_row t p)) as (new & Hnew & Hmap).
    exists (params_row (next_rowid t) p :: new). split.
    + unfold insert_rows in *; simpl. rewrite Hnew, insert_row_eq. by rewrite <- app_assoc.
    + simpl. rewrite Hmap. f_equal. by destruct p as [[[[[ts op] hi] lo] cl] vo].
Qed.

Lemma complete_params_spec cs ps :
  complete_params cs = inr ps →
  Forall2 (λ cd p, candle_params cd = inr p) (filter (λ cd, complete cd = true) cs) ps.
Proof.
  revert ps. induction cs as [|cd cs IH]; intros ps Hcp; simpl in Hcp.
  - injection Hcp as <-. constructor.
  - destruct (complete cd) eqn:Hc.
    + rewrite filter_cons_True by exact Hc.
      destruct (candle_params cd) as [e|p] eqn:Hp; [discriminate|].
      destruct (complete_params cs) as [e|ps'] eqn:Hps; [discriminate|].
      injection Hcp as <-. constructor; [exact Hp|]. by apply IH.
    + rewrite filter_cons_False by (rewrite Hc; discriminate). by apply IH.
Qed.

Lemma complete_params_ok cs ps cd :
  complete_params cs = inr ps → cd ∈ cs → complete cd = true → ∃ p, candle_params cd = inr p.
Proof.
  revert ps. induction cs as [|cd' cs IH]; intros ps Hcp Hin Hc; [inversion Hin|].
  simpl in Hcp. apply elem_of_cons in Hin as [->|Hin].
  - rewrite Hc in Hcp. destruct (candle_params cd'); [discriminate|eauto].
  - destruct (complete cd').
    + destruct (candle_params cd'); [discriminate|].
      destruct (complete_params cs) as [|ps'] eqn:Hps; [discriminate|]. eauto.
    + eauto.
Qed.

Lemma complete_params_incomplete cs :
  Forall (λ cd, complete cd = false) cs → complete_params cs = inr [].
Proof.
  induction 1 as [|cd cs Hcd _ IH]; [done|]. simpl. by rewrite Hcd.
Qed.

Lemma length_filter_complete (cs : list Candle) :
  length (filter (λ cd, complete cd = true) cs) =
  (length cs - length (filter (λ cd, complete cd = false) cs))%nat.
Proof.
  induction cs as [|cd cs IH]; [done|]. simpl.
  destruct (complete cd) eqn:Hc.
  - rewrite filter_cons_True, (filter_cons_False (λ cd, complete cd = false)) by congruence.
    simpl. rewrite IH. pose proof (length_filter (λ cd, complete cd = false) cs). lia.
  - rewrite (filter_cons_False (λ cd, complete cd = true)), filter_cons_True by congruence.
    simpl. exact IH.
Qed.


Lemma sublist_map {A B} (f : A → B) (l1 l2 : list A) :
  l1 `sublist_of` l2 → map f l1 `sublist_of` map f l2.
Proof. induction 1; simpl; by constructor. Qed.

Lemma Forall2_map_r {A B C} (P : A → C → Prop) (f : B → C) (l : list A) (k : list B) :
  Forall2 P l (map f k) → Forall2 (λ x y, P x (f y)) l k.
Proof.
  revert l. induction k as [|y k IH]; intros l HF; simpl in HF.
  - inversion HF. constructor.
  - inversion HF; subst. constructor; [done|]. by apply IH.
Qed.

#[global] Instance ts_desc_trans : Transitive ts_desc.
Proof. intros r1 r2 r3. unfold ts_desc. lia. Qed.

Lemma candle_params_time cd p : candle_params cd = inr p → params_ts p = time cd.
Proof.
  unfold candle_params.
  destruct (parse_f64 (o (mid cd))), (parse_f64 (h (mid cd))),
    (parse_f64 (l (mid cd))), (parse_f64 (c (mid cd))); try discriminate.
  intros Hp. by injection Hp as <-.
Qed.

(** ** The append operation ([insert_candles]). *)

Section Append.

Hypothesis order_desc_perm : ∀ t, order_desc t ≡ₚ t.
Hypothesis order_desc_sorted : ∀ t, Sorted ts_desc (order_desc t).


(** Claim C3: an append either fails and leaves the committed database
    exactly as it was, or commits both the insertion of the complete
    candles and the trim. *)
Theorem append_all_or_nothing tbl cs cn :
  (∃ e cn', insert_candles tbl cs cn = (inl e, cn') ∧ committed cn' = committed cn) ∨
  (∃ cn' t ps, insert_candles tbl cs cn = (inr tt, cn') ∧
     committed cn !! tbl = Some t ∧ complete_params cs = inr ps ∧
     committed cn' = <[tbl := trim_table (insert_rows t ps)]> (committed cn)).
Proof.
  destruct (insert_candles_cases tbl cs cn)
    as [Herr|(cn' & t & ps & Hr & _ & _ & Ht & Hps & Hc)]; [by left|].
  right. exists cn', t, ps. auto.
Qed.

(** Claim C4: a successful append inserts one row per complete candle, in
    order, carrying that candle's parsed values; there are N - K of them
    for N candles of which K are incomplete. *)
Theorem append_inserts_complete_only tbl cs cn cn' t :
  insert_candles tbl cs cn = (inr tt, cn') → committed cn !! tbl = Some t →
  ∃ new, committed cn' !! tbl = Some (trim_table (t ++ new)) ∧
    length new = (length cs - length (filter (λ cd, complete cd = false) cs))%nat ∧
    Forall2 (λ cd r, candle_params cd = inr (row_params r))
      (filter (λ cd, complete cd = true) cs) new.
Proof.
  intros Hrun Ht.
  destruct (insert_candles_cases tbl cs cn)
    as [(e & cn'' & Hr & _)|(cn'' & t0 & ps & Hr & _ & _ & Ht0 & Hps & Hc)];
    rewrite Hrun in Hr; [discriminate|].
  injection Hr as <-. rewrite Ht in Ht0. injection Ht0 as <-.
  destruct (insert_rows_app ps t) as (new & Hnew & Hmap).
  pose proof (complete_params_spec cs ps Hps) as HF.
  rewrite <- Hmap in HF. apply Forall2_map_r in HF.
  exists new. split; [by rewrite Hc, lookup_insert_eq, Hnew|]. split; [|exact HF].
  rewrite <- length_filter_complete. symmetry. by apply Forall2_length in HF.
Qed.


(** Claim C8 (as amended): a complete candle whose open, high, low or close
    string does not parse makes the append fail, with the committed
    database unchanged. *)
Theorem append_unparseable_aborts tbl cs cn cd :
  cd ∈ cs → complete cd = true →
  (parse_f64 (o (mid cd)) = None ∨ parse_f64 (h (mid cd)) = None ∨
   parse_f64 (l (mid cd)) = None ∨ parse_f64 (c (mid cd)) = None) →
  ∃ e cn', insert_candles tbl cs cn = (inl e, cn') ∧ committed cn' = committed cn.
Proof.
  intros Hin Hc Hbad.
  destruct (insert_candles_cases tbl cs cn)
    as [Herr|(cn' & t & ps & Hr & _ & _ & Ht & Hps & Hcm)]; [exact Herr|].
  exfalso. destruct (complete_params_ok cs ps cd Hps Hin Hc) as [p Hp].
  unfold candle_params in Hp.
  destruct Hbad as [E|[E|[E|E]]]; rewrite E in Hp;
    repeat (match type of Hp with context [match ?x with _ => _ end] => destruct x end);
    discriminate.
Qed.


End Append.

(** ** The resume point. *)

Lemma max_ts_spec (t : table) :
  t ≠ [] → ∃ m, max_ts t = Some m ∧ (∃ r, r ∈ t ∧ timestamp r = m) ∧
                (∀ r, r ∈ t → timestamp r ≤ m).
Proof.
  induction t as [|r t IH]; intros Hne; [done|].
  destruct t as [|r1 t].
  - exists (timestamp r). simpl. split; [done|]. split; [exists r; split; [left|done]|].
    intros r' Hr'. apply list_elem_of_singleton in Hr'. subst. lia.
  - destruct IH as (m & Hm & (rm & Hrm & Hrmts) & Hall); [done|].
    exists (Z.max (timestamp r) m). split; [simpl in *; by rewrite Hm|]. split.
    + destruct (Z.le_ge_cases m (timestamp r)).
      * exists r. split; [left|lia].
      * exists rm. split; [by right|lia].
    + intros r' Hr'. apply elem_of_cons in Hr' as [->|Hr']; [lia|].
      specialize (Hall r' Hr'). lia.
Qed.

Lemma max_ts_top (t : table) r :
  r ∈ t → (∀ r', r' ∈ t → timestamp r' ≤ timestamp r) → max_ts t = Some (timestamp r).
Proof.
  intros Hr Htop. destruct (max_ts_spec t) as (m & Hm & (rm & Hrm & <-) & Hall).
  { intros ->. inversion Hr. }
  rewrite Hm. f_equal. specialize (Hall r Hr). specialize (Htop rm Hrm). lia.
Qed.

Section Resume.

Hypothesis order_desc_perm : ∀ t, order_desc t ≡ₚ t.
Hypothesis order_desc_sorted : ∀ t, Sorted ts_desc (order_desc t).

(** Claim C7: the resume-point lookup yields the largest stored timestamp;
    it yields [None] (no [from] parameter, so the fetch starts from the
    beginning) when the table is empty or missing and when the query
    itself fails. *)
Theorem resume_point_is_max tbl cn :
  (∀ t, view cn !! tbl = Some t → Forall (λ r, datetime_ok (timestamp r) = true) t) →
  fst (resume_point tbl cn) =
    inr (if fault (stmt_no cn) then None
         else match view cn !! tbl with Some t => max_ts t | None => None end) ∧
  ∀ g, Forall (λ kv, kv.1 ≠ "from") (candles_query g None).
Proof.
  intros Hok. split.
  2:{ intros g. repeat constructor; simpl; discriminate. }
  unfold resume_point. destruct (fault (stmt_no cn)); [done|].
  destruct (view cn !! tbl) as [t|] eqn:Ht; [|done].
  pose proof (order_desc_perm t) as Hperm. pose proof (order_desc_sorted t) as Hsort.
  destruct (order_desc t) as [|r rest] eqn:Ho.
  - apply Permutation_nil in Hperm. by subst t.
  - assert (Hr : r ∈ t) by (rewrite <- Hperm; left).
    specialize (Hok t eq_refl). rewrite Forall_forall in Hok.
    rewrite (Hok r Hr). simpl. f_equal. f_equal.
    symmetry. apply max_ts_top; [exact Hr|].
    apply Sorted_StronglySorted in Hsort; [|apply _].
    intros r' Hr'. rewrite <- Hperm in Hr'.
    apply elem_of_cons in Hr' as [->|Hr']; [lia|].
    apply StronglySorted_cons in Hsort as [Hall _].
    rewrite Forall_forall in Hall. exact (Hall r' Hr').
Qed.

End Resume.

(** ** Lemmas: one sync step and the whole run. *)

Lemma setup_table_ok tbl cn cn1 :
  pending cn = None → setup_table tbl cn = (inr tt, cn1) →
  pending cn1 = None ∧
  committed cn1 = match committed cn !! tbl with
                  | Some _ => committed cn
                  | None => <[tbl := []]> (committed cn)
                  end.
Proof.
  intros Hpn H. unfold setup_table, execute, view, set_view, bump in H.
  rewrite Hpn in H. simpl in H. rewrite ?Hpn in H.
  destruct (fault (stmt_no cn)); [discriminate|].
  destruct (committed cn !! tbl); injection H as <-; simpl; auto.
Qed.

Lemma resume_point_state tbl cn r cn' :
  resume_point tbl cn = (r, cn') → committed cn' = committed cn ∧ pending cn' = pending cn.
Proof.
  unfold resume_point, bump. intros H.
  destruct (fault (stmt_no cn)); [injection H as _ <-; auto|].
  destruct (view cn !! tbl) as [t|]; [|injection H as _ <-; auto].
  destruct (order_desc t) as [|r0 rest]; [injection H as _ <-; auto|].
  destruct (datetime_ok (timestamp r0)); injection H as _ <-; auto.
Qed.

Lemma fetch_candles_state inst g last cn r cn' :
  fetch_candles inst g last cn = (r, cn') → cn' = cn.
Proof.
  unfold fetch_candles, unwrap, ret, throw.
  destruct (upstream _ _); intros H; by injection H as _ <-.
Qed.

Lemma fetch_candles_ok inst g last cn cs cn' :
  fetch_candles inst g last cn = (inr cs, cn') →
  upstream (candles_path inst) (candles_query g last) = Some cs.
Proof.
  unfold fetch_candles, unwrap, ret, throw.
  destruct (upstream _ _); intros H; [by injection H as -> _|discriminate].
Qed.

(** The steps of [sync_pair] before the append: the table exists, nothing
    else changed, and the append receives what upstream returned. *)
Lemma sync_pair_prefix inst g cn cn' :
  pending cn = None → sync_pair inst g cn = (inr tt, cn') →
  ∃ cn3 cs,
    pending cn3 = None ∧
    committed cn3 = match committed cn !! table_name inst g with
                    | Some _ => committed cn
                    | None => <[table_name inst g := []]> (committed cn)
                    end ∧
    (∃ last, upstream (candles_path inst) (candles_query g last) = Some cs) ∧
    insert_candles (table_name inst g) cs cn3 = (inr tt, cn').
Proof.
  intros Hpn Hrun. unfold sync_pair in Hrun. rewrite bind_unit_eq in Hrun.
  destruct (setup_table (table_name inst g) cn) as [[e|[]] cn1] eqn:H1; [discriminate|].
  destruct (setup_table_ok _ _ _ Hpn H1) as [Hp1 Hc1].
  unfold bind at 1 in Hrun.
  destruct (resume_point (table_name inst g) cn1) as [[e|last] cn2] eqn:H2; [discriminate|].
  destruct (resume_point_state _ _ _ _ H2) as [Hc2 Hp2].
  unfold bind at 1 in Hrun.
  destruct (fetch_candles inst g last cn2) as [[e|cs] cn3] eqn:H3; [discriminate|].
  pose proof (fetch_candles_state _ _ _ _ _ _ H3) as ->.
  exists cn2, cs. split; [congruence|]. split; [congruence|]. split; [|exact Hrun].
  exists last. by apply fetch_candles_ok in H3.
Qed.

Definition step_ok (m : St unit) (targets : list string) : Prop :=
  ∀ cn cn', pending cn = None → db_wf (committed cn) → m cn = (inr tt, cn') →
    pending cn' = None ∧ db_wf (committed cn') ∧
    (∀ n, table_ok n (committed cn) → table_ok n (committed cn')) ∧
    (∀ n, n ∈ targets → table_ok n (committed cn')).

Lemma for_each_step_ok {A} (f : A → St unit) (tg : A → list string) (l : list A) :
  (∀ x, step_ok (f x) (tg x)) → step_ok (for_each f l) (concat (map tg l)).
Proof.
  intros Hf. induction l as [|x l IH]; intros cn cn' Hpn Hwf Hrun; simpl in *.
  - injection Hrun as <-. split; [done|]. split; [done|]. split; [done|].
    intros n Hn. inversion Hn.
  - rewrite bind_unit_eq in Hrun.
    destruct (f x cn) as [[e|[]] cn1] eqn:H1; [discriminate|].
    destruct (Hf x cn cn1 Hpn Hwf H1) as (Hp1 & Hw1 & Hk1 & Ht1).
    destruct (IH cn1 cn' Hp1 Hw1 Hrun) as (Hp2 & Hw2 & Hk2 & Ht2).
    split; [done|]. split; [done|]. split; [auto|].
    intros n Hn. apply elem_of_app in Hn as [Hn|Hn]; auto.
Qed.

Definition step_id (m : St unit) (targets : list string) : Prop :=
  ∀ cn cn', pending cn = None → (∀ n, n ∈ targets → table_ok n (committed cn)) →
    m cn = (inr tt, cn') → pending cn' = None ∧ committed cn' = committed cn.

Lemma for_each_step_id {A} (f : A → St unit) (tg : A → list string) (l : list A) :
  (∀ x, step_id (f x) (tg x)) → step_id (for_each f l) (concat (map tg l)).
Proof.
  intros Hf. induction l as [|x l IH]; intros cn cn' Hpn Hok Hrun; simpl in *.
  - by injection Hrun as <-.
  - rewrite bind_unit_eq in Hrun.
    destruct (f x cn) as [[e|[]] cn1] eqn:H1; [discriminate|].
    destruct (Hf x cn cn1 Hpn) as [Hp1 Hc1]; [intros n Hn; apply Hok, elem_of_app; by left|done|].
    destruct (IH cn1 cn' Hp1) as [Hp2 Hc2]; [|done|].
    + intros n Hn. rewrite Hc1. apply Hok, elem_of_app. by right.
    + split; [done|]. congruence.
Qed.

(** The tables a run syncs, in order. *)
Definition sync_targets (tickers : option string) (all : list string)
    (granularities : list Granularity) : list string :=
  concat (map (λ inst, concat (map (λ g, [table_name inst g]) (map granularity_code granularities)))
    (select_instruments (whitelist tickers) all)).

Section Run.

Hypothesis order_desc_perm : ∀ t, order_desc t ≡ₚ t.

Lemma sync_pair_step_ok inst g : step_ok (sync_pair inst g) [table_name inst g].
Proof.
  intros cn cn' Hpn Hwf Hrun.
  destruct (sync_pair_prefix inst g cn cn' Hpn Hrun) as (cn3 & cs & Hp3 & Hc3 & _ & Hins).
  set (tbl := table_name inst g) in *.
  destruct (insert_candles_cases tbl cs cn3)
    as [(e & cn'' & Hr & _)|(cn'' & t & ps & Hr & _ & Hp' & Ht & Hps & Hc)];
    rewrite Hins in Hr; [discriminate|].
  injection Hr as <-.
  assert (Hwf3 : db_wf (committed cn3)).
  { rewrite Hc3. destruct (committed cn !! tbl); [done|].
    apply map_Forall_insert_2; [apply NoDup_nil; done|done]. }
  assert (Hnd : NoDup (map rowid t)) by (apply (Hwf3 tbl t Ht)).
  assert (Hndi : NoDup (map rowid (insert_rows t ps))) by (apply insert_rows_nodup, Hnd).
  assert (Hndt : NoDup (map rowid (trim_table (insert_rows t ps)))).
  { eapply sublist_NoDup; [exact Hndi|]. apply sublist_map, trim_table_sublist. }
  assert (Hok : table_ok tbl (committed cn')).
  { exists (trim_table (insert_rows t ps)). rewrite Hc, lookup_insert_eq.
    split; [done|]. split; [done|]. by apply trim_table_length. }
  split; [done|]. split.
  { rewrite Hc. apply map_Forall_insert_2; done. }
  split.
  - intros n (tn & Htn & Hndn & Hlen).
    destruct (decide (n = tbl)) as [->|Hne]; [exact Hok|].
    exists tn. rewrite Hc, lookup_insert_ne by congruence. rewrite Hc3.
    destruct (committed cn !! tbl); [done|]. rewrite lookup_insert_ne by congruence. done.
  - intros n Hn. apply list_elem_of_singleton in Hn. by subst n.
Qed.

Lemma main_sync_step_ok tickers all gs :
  step_ok (main_sync tickers (Some all) gs) (sync_targets tickers all gs).
Proof.
  unfold main_sync, sync_targets. simpl.
  intros cn cn' Hpn Hwf Hrun. unfold bind, unwrap, ret in Hrun.
  revert cn cn' Hpn Hwf Hrun. apply for_each_step_ok.
  intros inst. apply for_each_step_ok. intros g. apply sync_pair_step_ok.
Qed.

Hypothesis upstream_no_complete :
  ∀ path q cs, upstream path q = Some cs → Forall (λ cd, complete cd = false) cs.

Lemma sync_pair_step_id inst g : step_id (sync_pair inst g) [table_name inst g].
Proof.
  intros cn cn' Hpn Hok Hrun.
  destruct (Hok (table_name inst g)) as (t & Ht & Hnd & Hlen); [by left|].
  destruct (sync_pair_prefix inst g cn cn' Hpn Hrun)
    as (cn3 & cs & Hp3 & Hc3 & (last & Hup) & Hins).
  rewrite Ht in Hc3.
  set (tbl := table_name inst g) in *.
  destruct (insert_candles_cases tbl cs cn3)
    as [(e & cn'' & Hr & _)|(cn'' & t' & ps & Hr & _ & Hp' & Ht' & Hps & Hc)];
    rewrite Hins in Hr; [discriminate|].
  injection Hr as <-. split; [done|].
  rewrite (complete_params_incomplete cs (upstream_no_complete _ _ _ Hup)) in Hps.
  injection Hps as <-. rewrite Hc3 in Ht'. rewrite Ht in Ht'. injection Ht' as <-.
  rewrite Hc, Hc3. unfold insert_rows; simpl.
  rewrite (trim_table_small order_desc_perm t Hlen). by apply insert_id.
Qed.

Lemma main_sync_step_id tickers all gs :
  step_id (main_sync tickers (Some all) gs) (sync_targets tickers all gs).
Proof.
  unfold main_sync, sync_targets. simpl.
  intros cn cn' Hpn Hok Hrun. unfold bind, unwrap, ret in Hrun.
  revert cn cn' Hpn Hok Hrun. apply for_each_step_id.
  intros inst. apply for_each_step_id. intros g. apply sync_pair_step_id.
Qed.

End Run.

(** ** Further properties of one sync step, the run and the append. *)

Lemma setup_table_run tbl cn :
  pending cn = None →
  setup_table tbl cn =
    if fault (stmt_no cn) then (inl SqlError, bump cn)
    else (inr tt, mkConn (match committed cn !! tbl with
                          | Some _ => committed cn
                          | None => <[tbl := []]> (committed cn)
                          end) None (S (stmt_no cn))).
Proof.
  intros Hpn. unfold setup_table, execute, view, set_view, bump. rewrite Hpn. simpl.
  destruct (fault (stmt_no cn)); [done|]. rewrite ?Hpn.
  by destruct (committed cn !! tbl).
Qed.

(** The database after [CREATE TABLE IF NOT EXISTS], as one insertion. *)
Lemma setup_committed tbl (d : gmap string table) :
  match d !! tbl with Some _ => d | None => <[tbl := []]> d end =
  <[tbl := default [] (d !! tbl)]> d.
Proof. destruct (d !! tbl) eqn:E; simpl; [|done]. symmetry. by apply insert_id. Qed.

(** Every run of [insert_candles] changes at most the table [tbl]. *)
Lemma insert_candles_other tbl cs cn n :
  n ≠ tbl → committed (snd (insert_candles tbl cs cn)) !! n = committed cn !! n.
Proof.
  intros Hne.
  destruct (insert_candles_cases tbl cs cn)
    as [(e & cn' & Hr & Hc)|(cn' & t & ps & Hr & _ & _ & _ & _ & Hc)]; rewrite Hr; simpl.
  - by rewrite Hc.
  - by rewrite Hc, lookup_insert_ne by congruence.
Qed.

Lemma bind_eq {A B} (m : St A) (k : A → St B) cn :
  (x <-- m ;; k x) cn = match m cn with (inl e, cn') => (inl e, cn') | (inr x, cn') => k x cn' end.
Proof. reflexivity. Qed.

(** A step that changes at most its target tables, and leaves no
    transaction open when it succeeds. *)
Definition frames (m : St unit) (targets : list string) : Prop :=
  ∀ cn, pending cn = None →
    (∀ n, n ∉ targets → committed (snd (m cn)) !! n = committed cn !! n) ∧
    (fst (m cn) = inr tt → pending (snd (m cn)) = None).

Lemma for_each_frames {A} (f : A → St unit) (tg : A → list string) (l : list A) :
  (∀ x, frames (f x) (tg x)) → frames (for_each f l) (concat (map tg l)).
Proof.
  intros Hf. induction l as [|x l IH]; intros cn Hpn; simpl.
  - split; [done|]. intros _. exact Hpn.
  - rewrite bind_unit_eq.
    destruct (Hf x cn Hpn) as [Hx Hpx].
    destruct (f x cn) as [[e|[]] cn1] eqn:H1; simpl in *.
    + split; [|intros Hbad; discriminate Hbad]. intros n Hn. apply Hx. intros Hin. apply Hn, elem_of_app. by left.
    + destruct (IH cn1 (Hpx eq_refl)) as [Hl Hpl]. split; [|exact Hpl].
      intros n Hn. rewrite Hl, Hx; [done| |]; intros Hin; apply Hn, elem_of_app; auto.
Qed.

Lemma sync_pair_frames inst g : frames (sync_pair inst g) [table_name inst g].
Proof.
  intros cn Hpn. set (tbl := table_name inst g).
  assert (Hother : ∀ n, n ∉ [tbl] →
            match committed cn !! tbl with
            | Some _ => committed cn | None => <[tbl := []]> (committed cn) end !! n =
            committed cn !! n).
  { intros n Hn. assert (n ≠ tbl) by (intros ->; apply Hn; left).
    destruct (committed cn !! tbl); [done|]. by rewrite lookup_insert_ne by congruence. }
  unfold sync_pair. fold tbl. rewrite bind_unit_eq, (setup_table_run tbl cn Hpn).
  destruct (fault (stmt_no cn)); simpl; [split; [done|intros Hbad; discriminate Hbad]|].
  rewrite bind_eq.
  destruct (resume_point tbl _) as [[e|last] cn2] eqn:H2;
    destruct (resume_point_state _ _ _ _ H2) as [Hc2 Hp2]; simpl in Hc2, Hp2.
  { simpl. split; [|intros Hbad; discriminate Hbad]. intros n Hn. rewrite Hc2. by apply Hother. }
  rewrite bind_eq.
  destruct (fetch_candles inst g last cn2) as [[e|cs] cn3] eqn:H3;
    pose proof (fetch_candles_state _ _ _ _ _ _ H3) as ->.
  { simpl. split; [|intros Hbad; discriminate Hbad]. intros n Hn. rewrite Hc2. by apply Hother. }
  split.
  - intros n Hn. assert (n ≠ tbl) by (intros ->; apply Hn; left).
    rewrite insert_candles_other by done. rewrite Hc2. by apply Hother.
  - intros Hok.
    destruct (insert_candles_cases tbl cs cn2)
      as [(e & cn' & Hr & _)|(cn' & t & ps & Hr & _ & Hp' & _)];
      rewrite Hr in Hok |- *; [discriminate|exact Hp'].
Qed.

Section Extras.

Hypothesis order_desc_perm : ∀ t, order_desc t ≡ₚ t.
Hypothesis order_desc_sorted : ∀ t, Sorted ts_desc (order_desc t).

(** The first row of [ORDER BY timestamp DESC] carries the largest timestamp. *)
Lemma order_desc_head_max (t : table) r rest :
  order_desc t = r :: rest → max_ts t = Some (timestamp r).
Proof.
  intros Ho. pose proof (order_desc_perm t) as Hperm. pose proof (order_desc_sorted t) as Hsort.
  rewrite Ho in Hperm, Hsort.
  assert (Hr : r ∈ t) by (rewrite <- Hperm; left).
  apply max_ts_top; [exact Hr|].
  apply Sorted_StronglySorted in Hsort; [|apply _].
  intros r' Hr'. rewrite <- Hperm in Hr'.
  apply elem_of_cons in Hr' as [->|Hr']; [lia|].
  apply StronglySorted_cons in Hsort as [Hall _].
  rewrite Forall_forall in Hall. exact (Hall r' Hr').
Qed.


(** A successful [sync_pair] asks upstream for candles from the largest
    timestamp stored in the pair's table; with no stored row, or when the
    lookup statement fails, it asks without [from]. The append then runs
    on the database where the table exists. *)
Theorem sync_pair_requests_from_latest inst g cn cn' :
  pending cn = None → sync_pair inst g cn = (inr tt, cn') →
  let tbl := table_name inst g in
  let t := default [] (committed cn !! tbl) in
  ∃ cs, upstream (candles_path inst)
          (candles_query g (if fault (S (stmt_no cn)) then None else max_ts t)) = Some cs ∧
        ∃ cn3, committed cn3 = <[tbl := t]> (committed cn) ∧ pending cn3 = None ∧
               insert_candles tbl cs cn3 = (inr tt, cn').
Proof.
  intros Hpn Hrun tbl t.
  unfold sync_pair in Hrun. fold tbl in Hrun.
  rewrite bind_unit_eq, (setup_table_run tbl cn Hpn) in Hrun.
  destruct (fault (stmt_no cn)); [discriminate|].
  rewrite setup_committed in Hrun. fold t in Hrun.
  set (cn1 := mkConn (<[tbl:=t]> (committed cn)) None (S (stmt_no cn))) in Hrun.
  unfold bind at 1 in Hrun.
  destruct (resume_point tbl cn1) as [[e|last] cn2] eqn:H2; [discriminate|].
  assert (Hlast : last = if fault (S (stmt_no cn)) then None else max_ts t).
  { unfold resume_point, bump in H2. simpl in H2.
    destruct (fault (S (stmt_no cn))); [by injection H2 as <- _|].
    unfold view in H2; simpl in H2. rewrite lookup_insert_eq in H2.
    destruct (order_desc t) as [|r rest] eqn:Ho.
    - injection H2 as <- _. pose proof (order_desc_perm t) as Hp. rewrite Ho in Hp.
      apply Permutation_nil in Hp. by rewrite Hp.
    - rewrite (order_desc_head_max t r rest Ho).
      destruct (datetime_ok (timestamp r)); [by injection H2 as <- _|discriminate]. }
  destruct (resume_point_state _ _ _ _ H2) as [Hc2 Hp2].
  unfold bind at 1 in Hrun.
  destruct (fetch_candles inst g last cn2) as [[e|cs] cn3] eqn:H3; [discriminate|].
  pose proof (fetch_candles_state _ _ _ _ _ _ H3) as ->.
  apply fetch_candles_ok in H3. rewrite Hlast in H3.
  exists cs. split; [exact H3|]. exists cn2. split; [done|]. split; [done|]. exact Hrun.
Qed.

(** When upstream is unreachable for an instrument, its [sync_pair] fails
    (with an upstream error, or earlier with a timestamp error), but the
    table [setup_table] created stays: the pair's table exists afterwards
    and no other table changed. *)
Theorem sync_pair_upstream_failure inst g cn :
  pending cn = None → fault (stmt_no cn) = false →
  (∀ q, upstream (candles_path inst) q = None) →
  let tbl := table_name inst g in
  ∃ e, fst (sync_pair inst g cn) = inl e ∧ (e = UpstreamError ∨ e = TimestampError) ∧
    committed (snd (sync_pair inst g cn)) =
      <[tbl := default [] (committed cn !! tbl)]> (committed cn).
Proof.
  intros Hpn Hf Hup tbl.
  unfold sync_pair. fold tbl. rewrite bind_unit_eq, (setup_table_run tbl cn Hpn), Hf.
  rewrite setup_committed.
  set (cn1 := mkConn (<[tbl:=default [] (committed cn !! tbl)]> (committed cn)) None (S (stmt_no cn))).
  rewrite bind_eq.
  destruct (resume_point tbl cn1) as [[e|last] cn2] eqn:H2;
    destruct (resume_point_state _ _ _ _ H2) as [Hc2 _]; simpl.
  - exists e. split; [done|]. split; [|exact Hc2].
    unfold resume_point, bump in H2. simpl in H2.
    destruct (fault (S (stmt_no cn))); [discriminate|].
    destruct (view cn1 !! tbl) as [t|]; [|discriminate].
    destruct (order_desc t) as [|r rest]; [discriminate|].
    destruct (datetime_ok (timestamp r)); [discriminate|]. injection H2 as <- _. by right.
  - rewrite bind_eq. unfold fetch_candles, unwrap, throw. rewrite Hup. simpl.
    exists UpstreamError. split; [done|]. split; [by left|exact Hc2].
Qed.

(** A successful run leaves no transaction open, keeps rowids distinct in
    every table, and leaves every table it synced existing with at most
    [MAX_CANDLES] rows; a table within the bound before stays so. *)
Theorem main_sync_success_invariant tickers all gs cn cn' :
  pending cn = None → db_wf (committed cn) →
  main_sync tickers (Some all) gs cn = (inr tt, cn') →
  pending cn' = None ∧ db_wf (committed cn') ∧
  (∀ n, table_ok n (committed cn) → table_ok n (committed cn')) ∧
  (∀ n, n ∈ sync_targets tickers all gs → table_ok n (committed cn')).
Proof.
  intros Hpn Hwf Hrun. exact (main_sync_step_ok order_desc_perm tickers all gs cn cn' Hpn Hwf Hrun).
Qed.

(** While the table stays within [MAX_CANDLES] rows, a successful append
    deletes nothing: the table becomes its old rows followed by one row per
    complete candle, with the candles' timestamps in order. *)
Theorem append_within_bound_keeps_all tbl cs cn cn' t :
  insert_candles tbl cs cn = (inr tt, cn') → committed cn !! tbl = Some t →
  (length t + length (filter (λ cd, complete cd = true) cs) ≤ MAX_CANDLES)%nat →
  ∃ new, committed cn' !! tbl = Some (t ++ new) ∧
    map timestamp new = map time (filter (λ cd, complete cd = true) cs).
Proof.
  intros Hrun Ht Hlen.
  destruct (insert_candles_cases tbl cs cn)
    as [(e & cn'' & Hr & _)|(cn'' & t0 & ps & Hr & _ & _ & Ht0 & Hps & Hc)];
    rewrite Hrun in Hr; [discriminate|].
  injection Hr as <-. rewrite Ht in Ht0. injection Ht0 as <-.
  destruct (insert_rows_app ps t) as (new & Hnew & Hmap).
  pose proof (complete_params_spec cs ps Hps) as HF.
  rewrite <- Hmap in HF. apply Forall2_map_r in HF.
  assert (Hts : map time (filter (λ cd, complete cd = true) cs) = map timestamp new).
  { clear -HF. induction HF as [|cd r l k Hcr _ IH]; [done|].
    simpl. rewrite IH. f_equal. apply candle_params_time in Hcr.
    rewrite <- Hcr. by destruct r. }
  exists new. split; [|done].
  rewrite Hc, lookup_insert_eq, Hnew, trim_table_small; [done|done|].
  rewrite length_app. apply Forall2_length in HF. lia.
Qed.

End Extras.


Lemma for_each_nil_steps (l : list string) cn :
  for_each (λ x, for_each (sync_pair x) []) l cn = (inr tt, cn).
Proof. induction l as [|x l IH]; [done|]. simpl. rewrite bind_unit_eq. apply IH. Qed.

(** A run with no table to sync (no instrument selected, or no
    granularity) runs no statement and succeeds. *)
Theorem main_sync_nothing_to_sync tickers all gs cn :
  sync_targets tickers all gs = [] → main_sync tickers (Some all) gs cn = (inr tt, cn).
Proof.
  unfold sync_targets, main_sync. intros Hnil. cbn [unwrap]. unfold bind, ret.
  destruct gs as [|g gs']; [apply for_each_nil_steps|].
  destruct (select_instruments (whitelist tickers) all) as [|i sel]; [done|].
  simpl in Hnil. discriminate.
Qed.

(** A run changes no table other than those it syncs, whether it succeeds
    or fails part way. *)
Theorem main_sync_only_targets tickers all gs cn n :
  pending cn = None → n ∉ sync_targets tickers all gs →
  committed (snd (main_sync tickers (Some all) gs cn)) !! n = committed cn !! n.
Proof.
  intros Hpn Hn. unfold main_sync, sync_targets in *. cbn [unwrap]. unfold bind at 1, ret.
  revert cn Hpn. intros cn Hpn.
  refine (proj1 (for_each_frames _ _ _ _ cn Hpn) n Hn).
  intros inst. apply for_each_frames. intros g. apply sync_pair_frames.
Qed.

(** An append to a table that does not exist fails (the trim's DELETE at
    the latest) and changes nothing. *)
Theorem append_missing_table_fails tbl cs cn :
  committed cn !! tbl = None →
  ∃ e cn', insert_candles tbl cs cn = (inl e, cn') ∧ committed cn' = committed cn.
Proof.
  intros Hnone.
  destruct (insert_candles_cases tbl cs cn)
    as [Herr|(cn' & t & ps & Hr & _ & _ & Ht & _)]; [exact Herr|congruence].
Qed.

(** An append changes no table but its own, whatever its outcome. *)
Theorem append_other_tables_unchanged tbl cs cn n :
  n ≠ tbl → committed (snd (insert_candles tbl cs cn)) !! n = committed cn !! n.
Proof. apply insert_candles_other. Qed.

End Oanda.

(** ** Running the sync twice (claim C5). *)

Section Idempotence.

Context {F : Type} (parse_f64 : string → option F)
  (order_desc : list (@row F) → list (@row F)) (fault : nat → bool) (datetime_ok : Z → bool)
  (upstream1 upstream2 : string → list (string * string) → option (list (@Candle F))).

Hypothesis order_desc_perm : ∀ t, order_desc t ≡ₚ t.
Hypothesis upstream2_no_complete :
  ∀ path q cs, upstream2 path q = Some cs → Forall (λ cd, complete cd = false) cs.

(** Claim C5 (as amended): after a successful sync, a second successful sync
    with the same arguments whose responses hold no complete candle leaves
    the database exactly as the first left it. *)
Theorem sync_rerun_without_complete_candles tickers all gs (cn0 cn1 cn2 : @conn F) :
  pending cn0 = None → db_wf (committed cn0) →
  main_sync parse_f64 order_desc fault datetime_ok upstream1 tickers (Some all) gs cn0 = (inr tt, cn1) →
  main_sync parse_f64 order_desc fault datetime_ok upstream2 tickers (Some all) gs cn1 = (inr tt, cn2) →
  committed cn2 = committed cn1.
Proof.
  intros Hpn Hwf Hrun1 Hrun2.
  destruct (main_sync_step_ok parse_f64 order_desc fault datetime_ok upstream1 order_desc_perm
              tickers all gs cn0 cn1 Hpn Hwf Hrun1) as (Hp1 & _ & _ & Hok1).
  destruct (main_sync_step_id parse_f64 order_desc fault datetime_ok upstream2 order_desc_perm
              upstream2_no_complete tickers all gs cn1 cn2 Hp1 Hok1 Hrun2) as [_ Hc].
  exact Hc.
Qed.

End Idempotence.

(** ** Instrument selection (claims C6 and C9). *)

Lemma starts_with_spec (s p : string) : starts_with s p = true ↔ ∃ rest, s = p +:+ rest.
Proof.
  revert s. induction p as [|a p IH]; intros s; simpl.
  - split; intros _.
    + exists s. reflexivity.
    + destruct s; reflexivity.
  - destruct s as [|b s].
    + split; [discriminate|]. intros [rest Hr]. discriminate.
    + simpl. destruct (ascii_dec a b) as [->|Hne].
      * rewrite IH. split; intros [rest Hr]; exists rest; [by rewrite Hr|by injection Hr].
      * split; [discriminate|]. intros [rest Hr]. injection Hr as Hab _. congruence.
Qed.

(** Claim C6: an instrument is selected iff its lowercased name starts with
    some whitelist entry; on the spec's example the selection is
    [["EUR_USD"; "EUR_USD_SHORT"]]. *)
Theorem select_instruments_prefix (wl all : list string) (x : string) :
  (x ∈ select_instruments wl all ↔
     x ∈ all ∧ ∃ w, w ∈ wl ∧ ∃ rest, to_lowercase x = w +:+ rest) ∧
  select_instruments ["eur_usd"] ["EUR_USD"; "EUR_USD_SHORT"; "GBP_USD"] =
    ["EUR_USD"; "EUR_USD_SHORT"].
Proof.
  split; [|reflexivity].
  unfold select_instruments, is_selected. rewrite list_elem_of_filter.
  rewrite existsb_exists. split.
  - intros [(w & Hw & Hs) Hx]. split; [exact Hx|]. exists w.
    split; [by apply list_elem_of_In|]. by apply starts_with_spec.
  - intros [Hx (w & Hw & Hs)]. split; [|exact Hx]. exists w.
    split; [by apply list_elem_of_In|]. by apply starts_with_spec.
Qed.

(** Claim C9: [--tickers ""] gives the whitelist [[""]], which selects every
    instrument of the catalog. *)
Theorem empty_tickers_select_all (all : list string) :
  whitelist (Some "") = [""] ∧ select_instruments (whitelist (Some "")) all = all.
Proof.
  split; [reflexivity|]. unfold select_instruments.
  apply filter_keep_all. intros x _. unfold is_selected. simpl.
  destruct (to_lowercase x); reflexivity.
Qed.

(** ** Concrete runs. *)

(** Decide a closed decidable proposition by evaluation. *)
Ltac vm_decide :=
  match goal with
  | |- ¬ ?P => apply (bool_decide_eq_false_1 P); vm_compute; reflexivity
  | |- ?P => apply (bool_decide_eq_true_1 P); vm_compute; reflexivity
  end.


#[global] Instance ts_desc_total {F} : Total (@ts_desc F).
Proof. intros r1 r2. unfold ts_desc. lia. Qed.

Lemma sqlite_order_desc_perm {F} (t : list (@row F)) : sqlite_order_desc t ≡ₚ t.
Proof. apply merge_sort_Permutation. Qed.

Lemma sqlite_order_desc_sorted {F} (t : list (@row F)) : Sorted ts_desc (sqlite_order_desc t).
Proof. apply Sorted_merge_sort. apply _. Qed.

Definition no_fault (_ : nat) : bool := false.
Definition any_datetime (_ : Z) : bool := true.

Definition sample_row (id ts : Z) : @row N := mkRow id ts 1%N 1%N 1%N 1%N 1%N.
Definition sample_candle (ts : Z) (done : bool) : @Candle N :=
  mkCandle ts done 1%N (mkOHLC "1" "1" "1" "1").
Definition sample_conn (t : list (@row N)) : @conn N := mkConn {[ "eur_usd_D" := t ]} None 0.
Definition sample_append (cs : list (@Candle N)) : @St N unit :=
  insert_candles parse_digits sqlite_order_desc no_fault "eur_usd_D" cs.

Definition rows_100_300 : list (@row N) := [sample_row 1 100; sample_row 2 200; sample_row 3 300].
Definition batch_3_complete_1_open : list (@Candle N) :=
  [sample_candle 100 true; sample_candle 200 true; sample_candle 300 true; sample_candle 400 false].
Definition batch_after_300 : list (@Candle N) := [sample_candle 400 true; sample_candle 500 true].
Definition bad_candle (done : bool) : @Candle N := mkCandle 100 done 1%N (mkOHLC "abc" "1" "1" "1").

Definition upstream_once (cs : list (@Candle N)) : string → list (string * string) → option (list (@Candle N)) :=
  λ _ _, Some cs.
Definition sample_sync (cs : list (@Candle N)) : @St N unit :=
  main_sync parse_digits sqlite_order_desc no_fault any_datetime (upstream_once cs)
    None (Some ["EUR_USD"]) [D].
Definition fresh_conn : @conn N := mkConn ∅ None 0.

Definition c1_after : @conn N := snd (sample_append batch_after_300 (sample_conn rows_100_300)).
Definition c4_after : @conn N := snd (sample_append batch_3_complete_1_open (sample_conn [])).
Definition c5_first : @conn N := snd (sample_sync [sample_candle 100 true] fresh_conn).
Definition c5_second : @conn N := snd (sample_sync [sample_candle 200 false] c5_first).

(** A trim that fails after an insertion (statement 2 of the transaction)
    leaves the committed table as it was. *)
Example append_trim_failure_rolls_back :
  let r := insert_candles parse_digits sqlite_order_desc (λ n, (n =? 2)%nat) "eur_usd_D"
             [sample_candle 400 true] (sample_conn rows_100_300) in
  fst r = inl SqlError ∧ committed (snd r) = committed (sample_conn rows_100_300).
Proof. vm_compute. split; reflexivity. Qed.




Lemma append_inserts_complete_only_witness :
  ∃ new, committed c4_after !! "eur_usd_D" = Some (trim_table sqlite_order_desc ([] ++ new)) ∧
    length new = (length batch_3_complete_1_open -
                  length (filter (λ cd, complete cd = false) batch_3_complete_1_open))%nat ∧
    Forall2 (λ cd r, candle_params parse_digits cd = inr (row_params r))
      (filter (λ cd, complete cd = true) batch_3_complete_1_open) new.
Proof.
  apply (append_inserts_complete_only parse_digits sqlite_order_desc no_fault
           "eur_usd_D" batch_3_complete_1_open (sample_conn []) c4_after []).
  - vm_compute. reflexivity.
  - vm_compute. reflexivity.
Defined.

(** The spec's scenario: three complete candles and one open candle into an
    empty table leave the rows at 100, 200 and 300. *)
Example append_scenario_rows :
  option_map (map timestamp) (committed c4_after !! "eur_usd_D") = Some [100; 200; 300].
Proof. vm_compute. reflexivity. Qed.


Lemma append_unparseable_aborts_witness :
  ∃ e cn', sample_append [bad_candle true] (sample_conn []) = (inl e, cn') ∧
    committed cn' = committed (sample_conn []).
Proof.
  apply (append_unparseable_aborts parse_digits sqlite_order_desc no_fault
           "eur_usd_D" [bad_candle true] (sample_conn []) (bad_candle true)).
  - left.
  - reflexivity.
  - left. reflexivity.
Defined.

(** An open candle with an unparseable price is skipped, not an error. *)
Lemma append_ignores_unparseable_open_candle_cex :
  fst (sample_append [bad_candle false] (sample_conn [])) = inr tt ∧
  parse_digits (o (mid (bad_candle false))) = None.
Proof. vm_compute. split; reflexivity. Qed.

Lemma resume_point_is_max_witness :
  fst (resume_point sqlite_order_desc no_fault any_datetime "eur_usd_D" (sample_conn rows_100_300)) =
    inr (if no_fault (stmt_no (sample_conn rows_100_300)) then None
         else match view (sample_conn rows_100_300) !! "eur_usd_D" with
              | Some t => max_ts t | None => None end) ∧
  ∀ g, Forall (λ kv, kv.1 ≠ "from") (candles_query g None).
Proof.
  apply (resume_point_is_max sqlite_order_desc no_fault any_datetime
           sqlite_order_desc_perm sqlite_order_desc_sorted "eur_usd_D" (sample_conn rows_100_300)).
  intros t Ht. vm_compute in Ht. injection Ht as <-. repeat constructor.
Defined.

Lemma sync_rerun_without_complete_candles_witness :
  committed c5_second = committed c5_first.
Proof.
  apply (sync_rerun_without_complete_candles parse_digits sqlite_order_desc no_fault any_datetime
           (upstream_once [sample_candle 100 true]) (upstream_once [sample_candle 200 false])
           sqlite_order_desc_perm) with (tickers := None) (all := ["EUR_USD"]) (gs := [D])
           (cn0 := fresh_conn).
  - intros path q cs Hcs. injection Hcs as <-. repeat constructor.
  - reflexivity.
  - apply map_Forall_empty.
  - vm_compute. reflexivity.
  - vm_compute. reflexivity.
Defined.

(** A second run whose upstream repeats the stored candle (nothing newer)
    still changes the table: the candle is stored twice. *)
Lemma sync_rerun_duplicates_cex :
  fst (sample_sync [sample_candle 100 true] fresh_conn) = inr tt ∧
  fst (sample_sync [sample_candle 100 true] c5_first) = inr tt ∧
  option_map (map timestamp) (committed c5_first !! "eur_usd_D") = Some [100] ∧
  option_map (map timestamp)
    (committed (snd (sample_sync [sample_candle 100 true] c5_first)) !! "eur_usd_D") = Some [100; 100] ∧
  committed (snd (sample_sync [sample_candle 100 true] c5_first)) ≠ committed c5_first.
Proof.
  split; [vm_compute; reflexivity|]. split; [vm_compute; reflexivity|].
  split; [vm_compute; reflexivity|]. split; [vm_compute; reflexivity|].
  intros Heq. pose proof (f_equal (λ d, option_map (map timestamp) (d !! "eur_usd_D")) Heq) as H.
  vm_compute in H. discriminate.
Qed.

(** ** The text handling of [main] (lines 160-174 and 184). *)

(** [pieces.join(",")]: the inverse of [str::split(',')]. *)
Fixpoint join_comma (pieces : list string) : string :=
  match pieces with
  | [] => EmptyString
  | [p] => p
  | p :: rest => p +:+ String ","%char (join_comma rest)
  end.

(** The number of [','] in a string. *)
Definition commas (s : string) : nat :=
  length (filter (λ ch, ch = ","%char) (list_ascii_of_string s)).


Lemma string_app_cons (ch : ascii) (a b : string) : String ch a +:+ b = String ch (a +:+ b).
Proof. reflexivity. Qed.

Lemma string_app_assoc (a b c : string) : (a +:+ b) +:+ c = a +:+ (b +:+ c).
Proof. induction a as [|ch a IH]; [done|]. by rewrite !string_app_cons, IH. Qed.

Lemma string_app_nil_r (a : string) : a +:+ EmptyString = a.
Proof. induction a as [|ch a IH]; [done|]. by rewrite string_app_cons, IH. Qed.

Lemma string_of_list_ascii_app (l1 l2 : list ascii) :
  string_of_list_ascii (l1 ++ l2) = string_of_list_ascii l1 +:+ string_of_list_ascii l2.
Proof. induction l1 as [|ch l1 IH]; simpl; [done|]. by rewrite string_app_cons, IH. Qed.

Lemma list_ascii_of_string_app (a b : string) :
  list_ascii_of_string (a +:+ b) = list_ascii_of_string a ++ list_ascii_of_string b.
Proof. induction a as [|ch a IH]; [done|]. rewrite string_app_cons. simpl. by rewrite IH. Qed.

Lemma rev_string_cons (ch : ascii) (s : string) :
  rev_string (String ch s) = rev_string s +:+ String ch EmptyString.
Proof. unfold rev_string. simpl. by rewrite string_of_list_ascii_app. Qed.

Lemma split_comma_aux_cons cur s : ∃ p rest, split_comma_aux cur s = p :: rest.
Proof.
  revert cur. induction s as [|ch s IH]; intros cur; simpl; [eauto|].
  destruct (ascii_dec ch ","%char); eauto.
Qed.

Lemma split_comma_aux_join cur s : join_comma (split_comma_aux cur s) = rev_string cur +:+ s.
Proof.
  revert cur. induction s as [|ch s IH]; intros cur; simpl.
  - by rewrite string_app_nil_r.
  - destruct (ascii_dec ch ","%char) as [->|Hne].
    + destruct (split_comma_aux_cons EmptyString s) as (p & rest & Hs).
      rewrite Hs. change (join_comma (rev_string cur :: p :: rest))
        with (rev_string cur +:+ String ","%char (join_comma (p :: rest))).
      rewrite <- Hs, IH. reflexivity.
    + by rewrite IH, rev_string_cons, string_app_assoc, string_app_cons.
Qed.

Lemma split_comma_aux_length cur s : length (split_comma_aux cur s) = (commas s + 1)%nat.
Proof.
  revert cur. induction s as [|ch s IH]; intros cur; simpl; [done|].
  unfold commas; simpl. destruct (ascii_dec ch ","%char) as [->|Hne].
  - rewrite filter_cons_True by done. simpl. f_equal. apply IH.
  - rewrite filter_cons_False by done. apply IH.
Qed.

Lemma commas_zero (s : string) :
  commas s = 0%nat ↔ Forall (λ ch, ch ≠ ","%char) (list_ascii_of_string s).
Proof.
  unfold commas. rewrite length_zero_iff_nil.
  induction (list_ascii_of_string s) as [|ch l IH]; simpl.
  - split; constructor.
  - destruct (decide (ch = ","%char)) as [->|Hne].
    + rewrite filter_cons_True by done. split; [discriminate|]. intros HF. inversion HF. done.
    + rewrite filter_cons_False by done. rewrite IH. split.
      * intros HF. by constructor.
      * intros HF. by inversion HF.
Qed.

Lemma split_comma_aux_pieces cur s :
  Forall (λ ch, ch ≠ ","%char) (list_ascii_of_string cur) →
  ∀ p, p ∈ split_comma_aux cur s → commas p = 0%nat.
Proof.
  revert cur. induction s as [|ch s IH]; intros cur Hcur p Hp; simpl in Hp.
  - apply list_elem_of_singleton in Hp as ->. apply commas_zero.
    unfold rev_string. rewrite list_ascii_of_string_of_list_ascii.
    by apply Forall_rev.
  - destruct (ascii_dec ch ","%char) as [->|Hne].
    + apply elem_of_cons in Hp as [->|Hp].
      * apply commas_zero. unfold rev_string. rewrite list_ascii_of_string_of_list_ascii.
        by apply Forall_rev.
      * apply (IH EmptyString); [constructor|exact Hp].
    + apply (IH (String ch cur)); [|exact Hp]. simpl. by constructor.
Qed.













(** [str::split(',')] loses nothing: joining the pieces with [','] gives
    the string back, there is one piece more than there are commas, and no
    piece holds a comma. *)
Theorem split_comma_round_trip (s : string) :
  join_comma (split_comma s) = s ∧ length (split_comma s) = (commas s + 1)%nat ∧
  ∀ p, p ∈ split_comma s → commas p = 0%nat.
Proof.
  split; [apply split_comma_aux_join|]. split; [apply split_comma_aux_length|].
  apply split_comma_aux_pieces. constructor.
Qed.


(** Two (instrument, granularity) pairs share a table exactly when the
    instruments agree up to ASCII case and the granularities are equal. *)
Theorem table_name_collision (x y : string) (g g' : Granularity) :
  table_name x (granularity_code g) = table_name y (granularity_code g') ↔
  to_lowercase x = to_lowercase y ∧ g = g'.
Proof.
  split; [|intros [Hl ->]; unfold table_name; by rewrite Hl].
  unfold table_name. intros H. apply (f_equal list_ascii_of_string) in H.
  rewrite !list_ascii_of_string_app in H.
  apply app_inj_2 in H as [Hx Hg]; [|by destruct g, g'].
  split.
  - by rewrite <- (string_of_list_ascii_of_string (to_lowercase x)), Hx,
      string_of_list_ascii_of_string.
  - destruct g, g'; simpl in Hg; congruence.
Qed.

(** ** Concrete runs for the further properties. *)

Definition upstream_down : string → list (string * string) → option (list (@Candle N)) :=
  λ _ _, None.

(** Two tables: the synced ["eur_usd_D"] and ["gbp_usd_D"], which a run for
    [EUR_USD] does not touch. *)
Definition two_tables : @conn N :=
  mkConn (<["gbp_usd_D" := [sample_row 1 50]]> {[ "eur_usd_D" := rows_100_300 ]}) None 0.

Definition sync_eur_usd (up : string → list (string * string) → option (list (@Candle N)))
    : string → string → @St N unit :=
  sync_pair parse_digits sqlite_order_desc no_fault any_datetime up.


Lemma sync_pair_requests_from_latest_witness :
  let tbl := table_name "EUR_USD" "D" in
  let t := default [] (committed c5_first !! tbl) in
  ∃ cs, upstream_once [sample_candle 200 true] (candles_path "EUR_USD")
          (candles_query "D" (if no_fault (S (stmt_no c5_first)) then None else max_ts t)) = Some cs ∧
        ∃ cn3, committed cn3 = <[tbl := t]> (committed c5_first) ∧ pending cn3 = None ∧
               insert_candles parse_digits sqlite_order_desc no_fault tbl cs cn3 =
                 (inr tt, snd (sync_eur_usd (upstream_once [sample_candle 200 true]) "EUR_USD" "D" c5_first)).
Proof.
  apply (sync_pair_requests_from_latest parse_digits sqlite_order_desc no_fault any_datetime
           (upstream_once [sample_candle 200 true]) sqlite_order_desc_perm sqlite_order_desc_sorted
           "EUR_USD" "D" c5_first).
  - vm_compute. reflexivity.
  - vm_compute. reflexivity.
Defined.

(** On that run the request carries [from = 100], the stored candle. *)
Example sync_pair_request_from_100 :
  max_ts (default [] (committed c5_first !! table_name "EUR_USD" "D")) = Some 100.
Proof. vm_compute. reflexivity. Qed.

Lemma sync_pair_upstream_failure_witness :
  let tbl := table_name "EUR_USD" "D" in
  ∃ e, fst (sync_eur_usd upstream_down "EUR_USD" "D" fresh_conn) = inl e ∧
    (e = UpstreamError ∨ e = TimestampError) ∧
    committed (snd (sync_eur_usd upstream_down "EUR_USD" "D" fresh_conn)) =
      <[tbl := default [] (committed fresh_conn !! tbl)]> (committed fresh_conn).
Proof.
  apply (sync_pair_upstream_failure parse_digits sqlite_order_desc no_fault any_datetime
           upstream_down "EUR_USD" "D" fresh_conn).
  - reflexivity.
  - reflexivity.
  - intros q. reflexivity.
Defined.

Lemma main_sync_nothing_to_sync_witness :
  main_sync parse_digits sqlite_order_desc no_fault any_datetime (upstream_once [])
    (Some "gbp") (Some ["EUR_USD"]) [D] (sample_conn rows_100_300) =
  (inr tt, sample_conn rows_100_300).
Proof.
  apply (main_sync_nothing_to_sync parse_digits sqlite_order_desc no_fault any_datetime
           (upstream_once []) (Some "gbp") ["EUR_USD"] [D] (sample_conn rows_100_300)).
  vm_compute. reflexivity.
Defined.

Lemma main_sync_only_targets_witness :
  committed (snd (sample_sync [sample_candle 400 true] two_tables)) !! "gbp_usd_D" =
  committed two_tables !! "gbp_usd_D".
Proof.
  apply (main_sync_only_targets parse_digits sqlite_order_desc no_fault any_datetime
           (upstream_once [sample_candle 400 true]) None ["EUR_USD"] [D] two_tables "gbp_usd_D").
  - reflexivity.
  - vm_decide.
Defined.

Lemma append_missing_table_fails_witness :
  ∃ e cn', sample_append batch_after_300 fresh_conn = (inl e, cn') ∧
    committed cn' = committed fresh_conn.
Proof.
  apply (append_missing_table_fails parse_digits sqlite_order_desc no_fault
           "eur_usd_D" batch_after_300 fresh_conn).
  reflexivity.
Defined.

Lemma append_other_tables_unchanged_witness :
  committed (snd (sample_append batch_after_300 two_tables)) !! "gbp_usd_D" =
  committed two_tables !! "gbp_usd_D".
Proof.
  apply (append_other_tables_unchanged parse_digits sqlite_order_desc no_fault
           "eur_usd_D" batch_after_300 two_tables "gbp_usd_D").
  discriminate.
Defined.

Lemma main_sync_success_invariant_witness :
  pending c5_first = None ∧ db_wf (committed c5_first) ∧
  (∀ n, table_ok n (committed fresh_conn) → table_ok n (committed c5_first)) ∧
  (∀ n, n ∈ sync_targets None ["EUR_USD"] [D] → table_ok n (committed c5_first)).
Proof.
  apply (main_sync_success_invariant parse_digits sqlite_order_desc no_fault any_datetime
           (upstream_once [sample_candle 100 true]) sqlite_order_desc_perm
           None ["EUR_USD"] [D] fresh_conn c5_first).
  - reflexivity.
  - apply map_Forall_empty.
  - vm_compute. reflexivity.
Defined.

Lemma append_within_bound_keeps_all_witness :
  ∃ new, committed c1_after !! "eur_usd_D" = Some (rows_100_300 ++ new) ∧
    map timestamp new = map time (filter (λ cd, complete cd = true) batch_after_300).
Proof.
  apply (append_within_bound_keeps_all parse_digits sqlite_order_desc no_fault
           sqlite_order_desc_perm "eur_usd_D" batch_after_300
           (sample_conn rows_100_300) c1_after rows_100_300).
  - vm_compute. reflexivity.
  - vm_compute. reflexivity.
  - vm_compute. lia.
Defined.
